(** * Dependency topology engine of the analysis page (TopologyView.tsx)

    Shallow embedding of the pure graph transforms of
    [src/src/pages/analysis/components/TopologyView.tsx]:
    [aggregateToDirectory], [filterIsolatedNodes], [getGraphData], the
    degree map of [renderForceGraph], the forest construction of
    [renderTreeGraph] and [nodeDetail].

    Modelling conventions:
    - a JS [Set<string>] is an insertion-ordered list without duplicates
      ([set_add] appends only new elements), so [Array.from] is the list;
    - a JS [Map<string, V>] is a function [string -> option V];
      [m.get(k) || 0] is [get_or0];
    - [s.lastIndexOf("/")] returns [None] where JS returns [-1]. *)

From Stdlib Require Import String Ascii List Bool Arith Lia.
Import ListNotations.
Local Open Scope string_scope.
Local Open Scope list_scope.
Local Set Warnings "-register-all".


(** ** Data model ([types/index.ts]) *)

Record DepEdge := mkEdge { source : string; target : string }.

Record DependencyGraph := mkGraph { nodes : list string; edges : list DepEdge }.

(** ** JS collections *)

Definition set_has (s : list string) (x : string) : bool :=
  existsb (String.eqb x) s.

Definition set_add (s : list string) (x : string) : list string :=
  if set_has s x then s else s ++ [x].

Definition jsmap (V : Type) := string -> option V.

Definition map_empty {V} : jsmap V := fun _ => None.

Definition map_set {V} (m : jsmap V) (k : string) (v : V) : jsmap V :=
  fun k' => if String.eqb k' k then Some v else m k'.

Definition map_has {V} (m : jsmap V) (k : string) : bool :=
  match m k with Some _ => true | None => false end.

(** [m.get(k) || 0] *)
Definition get_or0 (m : jsmap nat) (k : string) : nat :=
  match m k with Some v => v | None => 0 end.

(** ** [path.lastIndexOf("/")] and [getDir] *)

Fixpoint lastIndexOf_from (c : ascii) (s : string) (i : nat) (acc : option nat)
  : option nat :=
  match s with
  | EmptyString => acc
  | String a s' => lastIndexOf_from c s' (S i) (if Ascii.eqb a c then Some i else acc)
  end.

Definition lastIndexOf (s : string) (c : ascii) : option nat :=
  lastIndexOf_from c s 0 None.

(** [const getDir = (path) => { const idx = path.lastIndexOf("/");
      return idx >= 0 ? path.substring(0, idx) : "(root)"; }] *)
Definition getDir (path : string) : string :=
  match lastIndexOf path "/"%char with
  | Some idx => substring 0 idx path
  | None => "(root)"
  end.

(** ** [aggregateToDirectory] *)

(** [graph.nodes.forEach((n) => dirSet.add(getDir(n)))] *)
Definition dirSet_of (ns : list string) : list string :=
  fold_left (fun s n => set_add s (getDir n)) ns [].

(** [`${srcDir}->${tgtDir}`] *)
Definition edge_key (srcDir tgtDir : string) : string :=
  String.append srcDir (String.append "->" tgtDir).

(** One iteration of [for (const e of graph.edges)]; the state is
    [(edgeSet, edges)]. *)
Definition agg_step (st : list string * list DepEdge) (e : DepEdge)
  : list string * list DepEdge :=
  let (edgeSet, es) := st in
  let srcDir := getDir (source e) in
  let tgtDir := getDir (target e) in
  if String.eqb srcDir tgtDir then st
  else
    let key := edge_key srcDir tgtDir in
    if negb (set_has edgeSet key)
    then (set_add edgeSet key, es ++ [mkEdge srcDir tgtDir])
    else st.

Definition aggregate_edges (es : list DepEdge) : list DepEdge :=
  snd (fold_left agg_step es ([], [])).

Definition aggregateToDirectory (graph : DependencyGraph) : DependencyGraph :=
  mkGraph (dirSet_of (nodes graph)) (aggregate_edges (edges graph)).

(** ** [filterIsolatedNodes] *)

Definition connected_of (es : list DepEdge) : list string :=
  fold_left (fun s e => set_add (set_add s (source e)) (target e)) es [].

Definition filterIsolatedNodes (graph : DependencyGraph) : DependencyGraph :=
  mkGraph (filter (fun n => set_has (connected_of (edges graph)) n) (nodes graph))
          (edges graph).

(** ** [getGraphData] *)

(** [hideIsolated ? filterIsolatedNodes(base) : base] *)
Definition isolationFilter (hideIsolated : bool) (base : DependencyGraph) : DependencyGraph :=
  if hideIsolated then filterIsolatedNodes base else base.

Inductive GranularityMode := file | directory.

Definition getGraphData (graph : DependencyGraph) (granularity : GranularityMode)
  (hideIsolated : bool) : DependencyGraph :=
  let base := match granularity with
              | directory => aggregateToDirectory graph
              | file => graph
              end in
  isolationFilter hideIsolated base.

(** ** Degree map and render-time nodes of [renderForceGraph] *)

Definition degreeMap (data : DependencyGraph) : jsmap nat :=
  let m0 := fold_left (fun m n => map_set m n 0) (nodes data) map_empty in
  fold_left
    (fun m e =>
       let m1 := map_set m (source e) (get_or0 m (source e) + 1) in
       map_set m1 (target e) (get_or0 m1 (target e) + 1))
    (edges data) m0.

Record GraphNode := mkGraphNode { gid : string; group : string; degree : nat }.

(** [group] is the same expression as [getDir]. *)
Definition graphNodes (data : DependencyGraph) : list GraphNode :=
  map (fun id => mkGraphNode id (getDir id) (get_or0 (degreeMap data) id)) (nodes data).

(** [new Map(nodes.map((n) => [n.id, n]))] *)
Definition nodeMap (ns : list GraphNode) : jsmap GraphNode :=
  fold_left (fun m n => map_set m (gid n) n) ns map_empty.

Definition links (data : DependencyGraph) : list DepEdge :=
  let nm := nodeMap (graphNodes data) in
  filter (fun e => map_has nm (source e) && map_has nm (target e)) (edges data).

(** ** [nodeDetail] *)

Record SelectionDetail := mkDetail
  { did : string; dependsOn : list string; dependedBy : list string }.

(** [if (!selectedNode) return null;] : both [null] and the empty string are
    falsy. *)
Definition nodeDetail (selectedNode : option string) (data : DependencyGraph)
  : option SelectionDetail :=
  match selectedNode with
  | None => None
  | Some s =>
      if String.eqb s "" then None
      else Some (mkDetail s
                   (map target (filter (fun e => String.eqb (source e) s) (edges data)))
                   (map source (filter (fun e => String.eqb (target e) s) (edges data))))
  end.

(** ** Forest construction of [renderTreeGraph] *)

(** [inDegree]: every node set to 0, then [+1] on the target of each edge. *)
Definition inDegree (data : DependencyGraph) : jsmap nat :=
  fold_left (fun m e => map_set m (target e) (get_or0 m (target e) + 1))
    (edges data)
    (fold_left (fun m n => map_set m n 0) (nodes data) map_empty).

(** [if (!children.has(e.source)) children.set(e.source, []);
     children.get(e.source)!.push(e.target);] *)
Definition children_step (m : jsmap (list string)) (e : DepEdge) : jsmap (list string) :=
  let m1 := if map_has m (source e) then m else map_set m (source e) [] in
  map_set m1 (source e)
    (match m1 (source e) with Some l => l ++ [target e] | None => [target e] end).

Definition childrenMap (data : DependencyGraph) : jsmap (list string) :=
  fold_left children_step (edges data) map_empty.

(** [children.get(id) || []] *)
Definition children_of (ch : jsmap (list string)) (id : string) : list string :=
  match ch id with Some l => l | None => [] end.

Definition roots (data : DependencyGraph) : list string :=
  filter (fun n => Nat.eqb (get_or0 (inDegree data) n) 0) (nodes data).

(** [interface TreeNode { name: string; children?: TreeNode[]; }] *)
Inductive TreeNode := TN (name : string) (kids : option (list TreeNode)).

(** [ids.map((r) => build(r))] where [build] updates the shared [visited]
    set: the set is threaded from one call to the next. *)
Fixpoint mapBuild {A} (build : list string -> string -> option (list string * A))
  (visited : list string) (ids : list string) : option (list string * list A) :=
  match ids with
  | [] => Some (visited, [])
  | c :: ids' =>
      match build visited c with
      | Some (v1, t) =>
          match mapBuild build v1 ids' with
          | Some (v2, ts) => Some (v2, t :: ts)
          | None => None
          end
      | None => None
      end
  end.

(** [buildTree]: the list of kids is filtered against [visited] once, before
    any of them is built.  The recursion is bounded by [fuel]; running out of
    fuel is the only [None] (see [buildTree_total] below). *)
Fixpoint buildTree (ch : jsmap (list string)) (fuel : nat) (visited : list string)
  (id : string) : option (list string * TreeNode) :=
  match fuel with
  | 0 => None
  | S f =>
      let visited1 := set_add visited id in
      let kids := filter (fun c => negb (set_has visited1 c)) (children_of ch id) in
      match mapBuild (buildTree ch f) visited1 kids with
      | Some (v, ts) =>
          Some (v, TN id (match kids with [] => None | _ :: _ => Some ts end))
      | None => None
      end
  end.

(** [(roots.length > 0 ? roots : [data.nodes[0]])]; [None] stands for
    [data.nodes[0]] being [undefined]. *)
Definition candidate_roots (data : DependencyGraph) : option (list string) :=
  let rs := roots data in
  if Nat.ltb 0 (length rs) then Some rs
  else match nth_error (nodes data) 0 with
       | Some x => Some [x]
       | None => None
       end.

Definition forest_fuel (data : DependencyGraph) : nat := S (length (edges data)).

(** The forest [fullTree]; [None] when [data.nodes.length === 0] (the early
    return before any tree is built). *)
Definition buildForest (data : DependencyGraph) : option TreeNode :=
  match nodes data with
  | [] => None
  | _ :: _ =>
      match candidate_roots data with
      | None => None
      | Some rs =>
          match mapBuild (buildTree (childrenMap data) (forest_fuel data)) [] rs with
          | None => None
          | Some (visited, rootTrees) =>
              let unvisited := filter (fun n => negb (set_has visited n)) (nodes data) in
              Some (TN "(project)" (Some (rootTrees ++ map (fun n => TN n None) unvisited)))
          end
      end
  end.

(** Names of a tree, in pre-order. *)
Fixpoint tree_names (t : TreeNode) : list string :=
  match t with
  | TN n None => [n]
  | TN n (Some ts) => n :: flat_map tree_names ts
  end.

(** Names of all sub-trees under the synthetic super-root. *)
Definition forest_names (t : TreeNode) : list string :=
  match t with
  | TN _ None => []
  | TN _ (Some ts) => flat_map tree_names ts
  end.

(** ** Labels and the detail-panel title *)

(** [const idx = d.id.lastIndexOf("/");
     return idx >= 0 ? d.id.substring(idx + 1) : d.id;]
    (labels of the force graph and, on [d.data.name], of the tree). *)
Definition nodeLabel (id : string) : string :=
  match lastIndexOf id "/"%char with
  | Some idx => substring (S idx) (String.length id - S idx) id
  | None => id
  end.

(** [s.split(sep)] for a one-character separator. *)
Fixpoint split_on (c : ascii) (s : string) : list string :=
  match s with
  | EmptyString => [""]
  | String a s' =>
      let parts := split_on c s' in
      if Ascii.eqb a c then "" :: parts
      else match parts with
           | p :: ps => String a p :: ps
           | [] => [String a ""]
           end
  end.

(** [arr.pop()]: the last element, [undefined] ([None]) on an empty array. *)
Definition js_pop (l : list string) : option string :=
  match rev l with [] => None | x :: _ => Some x end.

(** [{nodeDetail.id.split("/").pop()}], the title of the detail panel. *)
Definition detailTitle (id : string) : option string := js_pop (split_on "/"%char id).

(** ** View state and its setters *)

Inductive ViewMode := force | tree.

Record ViewState := mkView
  { viewMode : ViewMode; granularity : GranularityMode; expanded : bool;
    hideIsolated : bool; searchTerm : string; selectedNode : option string }.

(** The initial values of the [useState] hooks. *)
Definition initialView : ViewState := mkView force file false true "" None.

Inductive UiEvent :=
  | ToggleExpanded            (* [setExpanded((v) => !v)] *)
  | KeyDown (key : string)    (* the [keydown] listener *)
  | ToggleHideIsolated        (* [setHideIsolated((v) => !v)] *)
  | SetViewMode (m : ViewMode)
  | SetGranularity (g : GranularityMode)
  | SearchInput (s : string)  (* [setSearchTerm(e.target.value)] *)
  | ClearSearch               (* [setSearchTerm("")] *)
  | ClickNode (id : string)   (* [setSelectedNode((prev) => (prev === d.id ? null : d.id))] *)
  | CloseDetail.              (* [setSelectedNode(null)] *)

Definition opt_string_eqb (o : option string) (s : string) : bool :=
  match o with Some x => String.eqb x s | None => false end.

Definition step (st : ViewState) (ev : UiEvent) : ViewState :=
  match ev with
  | ToggleExpanded =>
      mkView (viewMode st) (granularity st) (negb (expanded st)) (hideIsolated st)
             (searchTerm st) (selectedNode st)
  | KeyDown key =>
      if String.eqb key "Escape" && expanded st
      then mkView (viewMode st) (granularity st) false (hideIsolated st)
                  (searchTerm st) (selectedNode st)
      else st
  | ToggleHideIsolated =>
      mkView (viewMode st) (granularity st) (expanded st) (negb (hideIsolated st))
             (searchTerm st) (selectedNode st)
  | SetViewMode m =>
      mkView m (granularity st) (expanded st) (hideIsolated st) (searchTerm st) (selectedNode st)
  | SetGranularity g =>
      mkView (viewMode st) g (expanded st) (hideIsolated st) (searchTerm st) (selectedNode st)
  | SearchInput s =>
      mkView (viewMode st) (granularity st) (expanded st) (hideIsolated st) s (selectedNode st)
  | ClearSearch =>
      mkView (viewMode st) (granularity st) (expanded st) (hideIsolated st) "" (selectedNode st)
  | ClickNode id =>
      mkView (viewMode st) (granularity st) (expanded st) (hideIsolated st) (searchTerm st)
             (if opt_string_eqb (selectedNode st) id then None else Some id)
  | CloseDetail =>
      mkView (viewMode st) (granularity st) (expanded st) (hideIsolated st) (searchTerm st) None
  end.

(** The graph the view derives from its state ([getGraphData()]). *)
Definition displayedGraph (graph : DependencyGraph) (st : ViewState) : DependencyGraph :=
  getGraphData graph (granularity st) (hideIsolated st).

(** ** Shape predicates on trees *)



(** Number of outgoing and incoming edges of [n]. *)
Definition out_count (es : list DepEdge) (n : string) : nat :=
  length (filter (fun e => String.eqb (source e) n) es).

Definition in_count (es : list DepEdge) (n : string) : nat :=
  length (filter (fun e => String.eqb (target e) n) es).

(** ** Vocabulary of the properties *)

(** The path contains the separator ["/"]. *)
Fixpoint has_slash (s : string) : bool :=
  match s with
  | EmptyString => false
  | String a s' => Ascii.eqb a "/"%char || has_slash s'
  end.

(** [n] appears as source or target of some edge. *)
Definition incident (es : list DepEdge) (n : string) : bool :=
  existsb (fun e => String.eqb (source e) n || String.eqb (target e) n) es.

(** Number of edge endpoint positions (source or target) present in [ns]. *)
Definition present_endpoints (ns : list string) (es : list DepEdge) : nat :=
  list_sum (map (fun e => Nat.b2n (set_has ns (source e)) + Nat.b2n (set_has ns (target e))) es).

(** Number of edges whose two endpoints are present in [ns]. *)
Definition both_present (ns : list string) (es : list DepEdge) : nat :=
  length (filter (fun e => set_has ns (source e) && set_has ns (target e)) es).

(** Every edge endpoint is in the node list. *)
Definition endpoints_known (g : DependencyGraph) : bool :=
  forallb (fun e => set_has (nodes g) (source e) && set_has (nodes g) (target e)) (edges g).

(** Sum of the render-time degrees. *)
Definition degree_sum (data : DependencyGraph) : nat :=
  list_sum (map degree (graphNodes data)).

(** ** Sample inputs *)

Definition g_scenario1 : DependencyGraph :=
  mkGraph ["a/x.ts"; "a/y.ts"; "b/z.ts"]
          [mkEdge "a/x.ts" "a/y.ts"; mkEdge "a/x.ts" "b/z.ts"].

Definition g_cycle : DependencyGraph :=
  mkGraph ["x"; "y"; "z"] [mkEdge "x" "y"; mkEdge "y" "z"; mkEdge "z" "x"].

Definition g_diamond : DependencyGraph :=
  mkGraph ["a"; "b"; "c"] [mkEdge "a" "b"; mkEdge "a" "c"; mkEdge "b" "c"].

Definition g_orphan : DependencyGraph := mkGraph ["a"] [mkEdge "a" "q"].

Definition g_orphan_dir : DependencyGraph := mkGraph ["a/x.ts"] [mkEdge "a/x.ts" "b/y.ts"].

Definition g_leaf : DependencyGraph := mkGraph ["a"; "b"] [mkEdge "a" "b"].

Definition g_arrow_dirs : DependencyGraph :=
  mkGraph ["a/f.ts"; "b->c/g.ts"; "a->b/h.ts"; "c/i.ts"]
          [mkEdge "a/f.ts" "b->c/g.ts"; mkEdge "a->b/h.ts" "c/i.ts"].

(** * Properties *)

(** ** Sets as lists *)

Lemma set_has_In (s : list string) (x : string) : set_has s x = true <-> In x s.
Proof.
  unfold set_has. rewrite existsb_exists. split.
  - intros [y [Hy Heq]]. apply String.eqb_eq in Heq. now subst.
  - intros H. exists x. split; [exact H | apply String.eqb_refl].
Qed.

Lemma set_has_false (s : list string) (x : string) : set_has s x = false <-> ~ In x s.
Proof.
  rewrite <- set_has_In. destruct (set_has s x); split; congruence.
Qed.

Lemma set_add_In (s : list string) (x y : string) :
  In y (set_add s x) <-> In y s \/ y = x.
Proof.
  unfold set_add. destruct (set_has s x) eqn:E.
  - apply set_has_In in E. split; [tauto | intros [H | ->]; assumption].
  - rewrite in_app_iff. simpl. split; intros [H | H]; intuition.
Qed.

Lemma set_add_NoDup (s : list string) (x : string) : NoDup s -> NoDup (set_add s x).
Proof.
  intros H. unfold set_add. destruct (set_has s x) eqn:E; [exact H|].
  apply set_has_false in E. apply NoDup_app; auto using NoDup_cons, NoDup_nil.
  intros y Hy [<- | []]. contradiction.
Qed.

Create HintDb topo.
Global Hint Resolve set_add_NoDup : topo.

(** Folding [set.add(f(x))] over a list. *)
Lemma fold_set_add_In {A} (f : A -> string) (xs : list A) (s0 : list string) (d : string) :
  In d (fold_left (fun s x => set_add s (f x)) xs s0) <->
  In d s0 \/ exists x, In x xs /\ f x = d.
Proof.
  revert s0. induction xs as [|x xs IH]; intros s0; simpl.
  - split; [tauto | intros [H | [y [[] _]]]; exact H].
  - rewrite IH, set_add_In. split.
    + intros [[H | H] | [y [Hy Hd]]]; eauto.
    + intros [H | [y [[<- | Hy] Hd]]]; eauto.
Qed.

Lemma fold_set_add_NoDup {A} (f : A -> string) (xs : list A) (s0 : list string) :
  NoDup s0 -> NoDup (fold_left (fun s x => set_add s (f x)) xs s0).
Proof.
  revert s0. induction xs; intros s0 H; simpl; auto with topo.
Qed.

(** ** Maps as functions *)

Lemma map_set_get {V} (m : jsmap V) k v k' :
  map_set m k v k' = if String.eqb k' k then Some v else m k'.
Proof. reflexivity. Qed.

(** ** Termination of [buildTree]

    Every recursive call of [buildTree] is on a kid that was not yet visited
    when the kid list of its parent was computed, and every kid is the target
    of some edge.  The number of edge targets outside [visited] bounds the
    recursion depth. *)

Section Measure.

Variable T : list string.

Definition unvisited_targets (V : list string) : nat :=
  length (filter (fun t => negb (set_has V t)) T).

Lemma unvisited_targets_le (V : list string) : unvisited_targets V <= length T.
Proof. unfold unvisited_targets. apply filter_length_le. Qed.

Lemma filter_unvisited_mono (V W : list string) (l : list string) :
  incl V W ->
  length (filter (fun t => negb (set_has W t)) l)
  <= length (filter (fun t => negb (set_has V t)) l).
Proof.
  intros H. induction l as [|t ts IH]; simpl; [lia|].
  destruct (set_has W t) eqn:EW, (set_has V t) eqn:EV; simpl; try lia.
  apply set_has_In, H, set_has_In in EV. congruence.
Qed.

Lemma unvisited_targets_mono (V W : list string) :
  incl V W -> unvisited_targets W <= unvisited_targets V.
Proof. apply filter_unvisited_mono. Qed.

Lemma unvisited_targets_strict (V W : list string) (c : string) :
  incl V W -> In c T -> In c W -> ~ In c V ->
  unvisited_targets W < unvisited_targets V.
Proof.
  intros H HcT HcW HcV. unfold unvisited_targets.
  induction T as [|t ts IH]; [destruct HcT|]. simpl.
  destruct (set_has W t) eqn:EW, (set_has V t) eqn:EV; simpl.
  - destruct HcT as [<- | HcT]; [apply set_has_In in EV; contradiction | auto].
  - pose proof (filter_unvisited_mono V W ts H). lia.
  - apply set_has_In, H, set_has_In in EV. congruence.
  - destruct HcT as [<- | HcT].
    + apply set_has_In in HcW. congruence.
    + specialize (IH HcT). lia.
Qed.

End Measure.

(** ** Shape of [buildTree] results *)

Lemma mapBuild_incl {A} (build : list string -> string -> option (list string * A)) :
  (forall w c w' t, build w c = Some (w', t) -> incl w w') ->
  forall ks w w' ts, mapBuild build w ks = Some (w', ts) -> incl w w'.
Proof.
  intros Hb ks. induction ks as [|c ks IH]; intros w w' ts H; simpl in H.
  - inversion H; subst. apply incl_refl.
  - destruct (build w c) as [[w1 t]|] eqn:E1; [|discriminate].
    destruct (mapBuild build w1 ks) as [[w2 ts']|] eqn:E2; [|discriminate].
    inversion H; subst. eapply incl_tran; [eapply Hb; exact E1 | eapply IH; exact E2].
Qed.

Lemma buildTree_incl (ch : jsmap (list string)) :
  forall f v id v' t, buildTree ch f v id = Some (v', t) -> incl v v' /\ In id v'.
Proof.
  induction f as [|f IH]; intros v id v' t H; simpl in H; [discriminate|].
  destruct (mapBuild (buildTree ch f) (set_add v id) _) as [[w ts]|] eqn:E;
    [|discriminate].
  inversion H; subst.
  assert (incl (set_add v id) v') as Hi.
  { eapply mapBuild_incl; [|exact E]. intros w0 c w1 t1 Hc. eapply IH; exact Hc. }
  split.
  - intros x Hx. apply Hi, set_add_In. auto.
  - apply Hi, set_add_In. auto.
Qed.

Lemma buildTree_name (ch : jsmap (list string)) :
  forall f v id v' t, buildTree ch f v id = Some (v', t) ->
  exists k, t = TN id k.
Proof.
  intros [|f] v id v' t H; simpl in H; [discriminate|].
  destruct (mapBuild (buildTree ch f) (set_add v id) _) as [[w ts]|];
    [|discriminate].
  inversion H; subst. eauto.
Qed.

(** ** [buildTree] never runs out of fuel *)

Section Termination.

Variable ch : jsmap (list string).
Variable T : list string.
Hypothesis ch_targets : forall id c, In c (children_of ch id) -> In c T.

Lemma buildTree_total :
  forall f V id, unvisited_targets T (set_add V id) < f ->
  exists V' t, buildTree ch f V id = Some (V', t).
Proof.
  induction f as [|f IH]; intros V id Hf; [lia|]. simpl.
  set (V1 := set_add V id).
  set (kids := filter (fun c => negb (set_has V1 c)) (children_of ch id)).
  assert (forall ks W, incl V1 W ->
            (forall c, In c ks -> In c T /\ ~ In c V1) ->
            exists W' ts, mapBuild (buildTree ch f) W ks = Some (W', ts)) as Hloop.
  { induction ks as [|c ks IHks]; intros W HW Hks; simpl; [eauto|].
    destruct (Hks c (or_introl eq_refl)) as [HcT HcV].
    assert (unvisited_targets T (set_add W c) < unvisited_targets T V1) as Hlt.
    { apply (unvisited_targets_strict T V1 (set_add W c) c); auto.
      - intros x Hx. apply set_add_In. auto.
      - apply set_add_In. auto. }
    destruct (IH W c ltac:(clear -Hlt Hf; unfold V1 in *; lia)) as [W1 [t1 Ht1]]. rewrite Ht1.
    destruct (buildTree_incl ch f W c W1 t1 Ht1) as [HW1 _].
    destruct (IHks W1) as [W2 [ts2 Hts2]].
    - eapply incl_tran; eassumption.
    - intros c' Hc'. apply Hks. right. exact Hc'.
    - rewrite Hts2. eauto. }
  destruct (Hloop kids V1 (incl_refl _)) as [W' [ts Hts]].
  - intros c Hc. unfold kids in Hc. apply filter_In in Hc as [Hc Hn].
    split; [eapply ch_targets; exact Hc|].
    apply negb_true_iff, set_has_false in Hn. exact Hn.
  - fold V1. fold kids. rewrite Hts. eauto.
Qed.

Lemma mapBuild_buildTree_total (f : nat) :
  length T < f ->
  forall ids W, exists W' ts, mapBuild (buildTree ch f) W ids = Some (W', ts).
Proof.
  intros Hf ids. induction ids as [|r ids IH]; intros W; simpl; [eauto|].
  destruct (buildTree_total f W r) as [W1 [t1 H1]].
  - pose proof (unvisited_targets_le T (set_add W r)). lia.
  - rewrite H1. destruct (IH W1) as [W2 [ts H2]]. rewrite H2. eauto.
Qed.

End Termination.

(** Every kid in [childrenMap] is the target of an edge. *)
Lemma childrenMap_targets (data : DependencyGraph) :
  forall id c, In c (children_of (childrenMap data) id) -> In c (map target (edges data)).
Proof.
  unfold childrenMap.
  assert (forall es m S,
            (forall k l c, m k = Some l -> In c l -> In c S) ->
            (forall e, In e es -> In (target e) S) ->
            forall k l c, fold_left children_step es m k = Some l -> In c l -> In c S)
    as Hinv.
  { induction es as [|e es IH]; intros m S Hm He; simpl; [exact Hm|].
    apply IH; [|intros e' He'; apply He; right; exact He'].
    intros k l c Hk Hc. unfold children_step in Hk. rewrite map_set_get in Hk.
    destruct (String.eqb k (source e)) eqn:Ek.
    - apply String.eqb_eq in Ek. subst k. inversion Hk; subst l.
      destruct (map_has m (source e)) eqn:Eh.
      + destruct (m (source e)) as [l0|] eqn:E0.
        * apply in_app_iff in Hc as [Hc | [<- | []]].
          -- eapply Hm; eassumption.
          -- apply He. left. reflexivity.
        * destruct Hc as [<- | []]. apply He. left. reflexivity.
      + rewrite map_set_get, String.eqb_refl in Hc. simpl in Hc.
        destruct Hc as [<- | []]. apply He. left. reflexivity.
    - destruct (map_has m (source e)).
      + eapply Hm; eassumption.
      + rewrite map_set_get, Ek in Hk. eapply Hm; eassumption. }
  intros id c H. unfold children_of in H.
  destruct (fold_left children_step (edges data) map_empty id) as [l|] eqn:E; [|destruct H].
  eapply Hinv; [| | exact E | exact H].
  - intros k l0 c0 Hk. discriminate.
  - intros e He. apply in_map. exact He.
Qed.

(** The forest builder returns a forest for every non-empty node list. *)
Lemma buildForest_total (data : DependencyGraph) :
  nodes data <> [] -> exists t, buildForest data = Some t.
Proof.
  intros Hne. unfold buildForest.
  destruct (nodes data) as [|x rest] eqn:En; [congruence|].
  assert (exists rs, candidate_roots data = Some rs) as [rs Hrs].
  { unfold candidate_roots. destruct (Nat.ltb 0 _); [eauto|]. rewrite En. simpl. eauto. }
  rewrite Hrs.
  destruct (mapBuild_buildTree_total (childrenMap data) (map target (edges data))
              (childrenMap_targets data) (forest_fuel data)) with (ids := rs) (W := @nil string)
    as [W' [ts H]].
  - unfold forest_fuel. rewrite length_map. lia.
  - rewrite H. eauto.
Qed.

(** ** Lemmas on [getDir] and [aggregateToDirectory] *)

Lemma lastIndexOf_from_no_slash (s : string) :
  has_slash s = false -> forall i acc, lastIndexOf_from "/"%char s i acc = acc.
Proof.
  induction s as [|a s IH]; intros H i acc; simpl in *; [reflexivity|].
  apply orb_false_iff in H as [Ha Hs]. rewrite Ha. apply IH. exact Hs.
Qed.

Lemma getDir_no_slash (s : string) : has_slash s = false -> getDir s = "(root)".
Proof.
  intros H. unfold getDir, lastIndexOf. rewrite lastIndexOf_from_no_slash; auto.
Qed.

Lemma dirSet_of_In (ns : list string) (d : string) :
  In d (dirSet_of ns) <-> exists n, In n ns /\ getDir n = d.
Proof.
  unfold dirSet_of. rewrite (fold_set_add_In getDir). simpl. tauto.
Qed.

Lemma dirSet_of_NoDup (ns : list string) : NoDup (dirSet_of ns).
Proof. apply (fold_set_add_NoDup getDir). constructor. Qed.

(** A self-edge at directory level leaves the loop state unchanged. *)
Lemma agg_step_self (st : list string * list DepEdge) (e : DepEdge) :
  getDir (source e) = getDir (target e) -> agg_step st e = st.
Proof.
  intros H. destruct st as [ks es]. unfold agg_step. rewrite H, String.eqb_refl.
  reflexivity.
Qed.

(** Invariant of the edge loop: every kept edge is the directory image of a
    non-self input edge. *)
Lemma aggregate_edges_inv (Q : DepEdge -> Prop) :
  forall es st,
  (forall e', In e' (snd st) -> Q e') ->
  (forall e, In e es -> getDir (source e) <> getDir (target e) ->
             Q (mkEdge (getDir (source e)) (getDir (target e)))) ->
  forall e', In e' (snd (fold_left agg_step es st)) -> Q e'.
Proof.
  induction es as [|e es IH]; intros st Hst He; simpl; [exact Hst|].
  apply IH; [|intros e0 H0; apply He; right; exact H0].
  destruct st as [ks out]. unfold agg_step.
  destruct (String.eqb (getDir (source e)) (getDir (target e))) eqn:Eq; [exact Hst|].
  destruct (negb (set_has ks _)); [|exact Hst].
  simpl. intros e' He'. apply in_app_iff in He' as [He' | [<- | []]].
  - apply Hst. exact He'.
  - apply He; [left; reflexivity|]. apply String.eqb_neq. exact Eq.
Qed.

Lemma aggregate_edges_origin (es : list DepEdge) (e' : DepEdge) :
  In e' (aggregate_edges es) ->
  exists e, In e es /\ getDir (source e) <> getDir (target e) /\
            e' = mkEdge (getDir (source e)) (getDir (target e)).
Proof.
  unfold aggregate_edges. revert e'.
  apply (aggregate_edges_inv (fun e' => exists e, In e es /\ getDir (source e) <> getDir (target e) /\
            e' = mkEdge (getDir (source e)) (getDir (target e)))); [intros ? []|].
  intros e He Hne. eauto.
Qed.

Lemma aggregate_edges_no_self (es : list DepEdge) (e' : DepEdge) :
  In e' (aggregate_edges es) -> source e' <> target e'.
Proof.
  intros H. apply aggregate_edges_origin in H as [e [_ [Hne ->]]]. exact Hne.
Qed.

(** The aggregation of the spec's first scenario. *)
Lemma aggregate_scenario1 :
  aggregateToDirectory g_scenario1 = mkGraph ["a"; "b"] [mkEdge "a" "b"].
Proof. reflexivity. Qed.

(** ** C3: directory aggregation *)

(** C3 (code defect). The edge loop deduplicates on the string key
    [`${srcDir}->${tgtDir}`], not on the pair.  With directories ["a"],
    ["b->c"], ["a->b"] and ["c"] the distinct pairs [("a","b->c")] and
    [("a->b","c")] share the key ["a->b->c"], so the second pair, which is
    not a self-edge, gets no edge at all. *)
Theorem aggregate_key_collision :
  edge_key "a" "b->c" = edge_key "a->b" "c" /\
  getDir "a->b/h.ts" = "a->b" /\ getDir "c/i.ts" = "c" /\
  In (mkEdge "a->b/h.ts" "c/i.ts") (edges g_arrow_dirs) /\
  edges (aggregateToDirectory g_arrow_dirs) = [mkEdge "a" "b->c"] /\
  ~ In (mkEdge "a->b" "c") (edges (aggregateToDirectory g_arrow_dirs)).
Proof.
  repeat split; try reflexivity.
  - simpl. auto.
  - vm_compute. intros [H | []]. discriminate.
Qed.

(** ** C6: node count and re-application *)

(** C6 (counterexample). Re-aggregating a graph whose node ids are leaf
    strings does not return it: every id maps to ["(root)"]. *)
Lemma aggregate_leaf_not_idempotent : aggregateToDirectory g_leaf <> g_leaf.
Proof. vm_compute. discriminate. Qed.

Lemma dirSet_of_all_root (ns : list string) :
  (forall n, In n ns -> has_slash n = false) ->
  fold_left (fun s n => set_add s (getDir n)) ns ["(root)"] = ["(root)"].
Proof.
  induction ns as [|n ns IH]; intros H; simpl; [reflexivity|].
  rewrite getDir_no_slash by (apply H; left; reflexivity).
  apply IH. intros m Hm. apply H. right. exact Hm.
Qed.

Lemma fold_agg_step_all_self (es : list DepEdge) (st : list string * list DepEdge) :
  (forall e, In e es -> getDir (source e) = getDir (target e)) ->
  fold_left agg_step es st = st.
Proof.
  revert st. induction es as [|e es IH]; intros st H; simpl; [reflexivity|].
  rewrite agg_step_self by (apply H; left; reflexivity).
  apply IH. intros e' He'. apply H. right. exact He'.
Qed.

(** C6 (amended). Aggregation yields exactly one node per distinct parent
    directory of the input nodes (so never more), and on a graph whose node
    ids and edge endpoints contain no ["/"] it collapses every node into the
    single node ["(root)"] and drops every edge. *)
Theorem aggregate_count_and_leaf_collapse :
  (forall g ds,
     NoDup ds ->
     (forall d, In d ds <-> exists n, In n (nodes g) /\ getDir n = d) ->
     length (nodes (aggregateToDirectory g)) = length ds) /\
  (forall g,
     forallb (fun n => negb (has_slash n)) (nodes g) = true ->
     forallb (fun e => negb (has_slash (source e)) && negb (has_slash (target e)))
       (edges g) = true ->
     aggregateToDirectory g =
       mkGraph (match nodes g with [] => [] | _ :: _ => ["(root)"] end) []).
Proof.
  split.
  - intros g ds Hds Hin. simpl.
    apply Nat.le_antisymm; apply NoDup_incl_length;
      auto using dirSet_of_NoDup; intros d Hd.
    + apply Hin, dirSet_of_In, Hd.
    + apply dirSet_of_In, Hin, Hd.
  - intros [ns es] Hn He. simpl in *.
    rewrite forallb_forall in Hn, He. unfold aggregateToDirectory. simpl. f_equal.
    + destruct ns as [|n ns]; [reflexivity|]. unfold dirSet_of. simpl.
      rewrite getDir_no_slash by (apply negb_true_iff, Hn; left; reflexivity).
      apply dirSet_of_all_root. intros m Hm. apply negb_true_iff, Hn. right. exact Hm.
    + unfold aggregate_edges. rewrite fold_agg_step_all_self; [reflexivity|].
      intros e Hin. specialize (He e Hin). apply andb_true_iff in He as [H1 H2].
      apply negb_true_iff in H1, H2. rewrite !getDir_no_slash; auto.
Qed.

(** ** C7: endpoints of aggregated edges *)

(** C7 (counterexample). An input edge whose target is absent from the node
    list yields an aggregated edge whose target directory is no output node. *)
Lemma aggregate_dangling_edge :
  aggregateToDirectory g_orphan_dir = mkGraph ["a"] [mkEdge "a" "b"] /\
  ~ In "b" (nodes (aggregateToDirectory g_orphan_dir)).
Proof.
  split; [reflexivity|]. vm_compute. intros [H | []]. discriminate.
Qed.

(** C7 (amended). When every input edge has both endpoints in the input node
    list, every aggregated edge has both endpoints in the aggregated node
    list. *)
Theorem aggregate_edges_closed (g : DependencyGraph) :
  endpoints_known g = true ->
  forall e, In e (edges (aggregateToDirectory g)) ->
  In (source e) (nodes (aggregateToDirectory g)) /\
  In (target e) (nodes (aggregateToDirectory g)).
Proof.
  intros Hk e' He'. unfold endpoints_known in Hk. rewrite forallb_forall in Hk.
  simpl in *. apply aggregate_edges_origin in He' as [e [He [_ ->]]]. simpl.
  specialize (Hk e He). apply andb_true_iff in Hk as [Hs Ht].
  apply set_has_In in Hs, Ht.
  split; apply dirSet_of_In; eauto.
Qed.

(** ** C9: the ["(root)"] sentinel *)

(** C9. Every id without ["/"] (["(root)"] included) has directory
    ["(root)"]; such nodes produce the one node ["(root)"] of a duplicate-free
    node list, and an edge between two such ids is skipped by the edge loop. *)
Theorem root_sentinel_merge :
  (forall s, has_slash s = false -> getDir s = "(root)") /\
  getDir "(root)" = "(root)" /\
  (forall g n, In n (nodes g) -> has_slash n = false ->
     In "(root)" (nodes (aggregateToDirectory g))) /\
  (forall g, NoDup (nodes (aggregateToDirectory g))) /\
  (forall es1 es2 e,
     has_slash (source e) = false -> has_slash (target e) = false ->
     aggregate_edges (es1 ++ e :: es2) = aggregate_edges (es1 ++ es2)).
Proof.
  split; [exact getDir_no_slash|]. split; [reflexivity|]. split; [|split].
  - intros g n Hn Hs. simpl. apply dirSet_of_In. exists n. split; [exact Hn|].
    apply getDir_no_slash. exact Hs.
  - intros g. apply dirSet_of_NoDup.
  - intros es1 es2 e Hs Ht. unfold aggregate_edges. rewrite !fold_left_app. simpl.
    rewrite agg_step_self; [reflexivity|]. rewrite !getDir_no_slash; auto.
Qed.

(** ** C5: isolation filter *)

Lemma connected_of_In (es : list DepEdge) (n : string) :
  In n (connected_of es) <-> exists e, In e es /\ (source e = n \/ target e = n).
Proof.
  unfold connected_of.
  enough (forall s0, In n (fold_left (fun s e => set_add (set_add s (source e)) (target e)) es s0)
                     <-> In n s0 \/ exists e, In e es /\ (source e = n \/ target e = n))
    as H by (rewrite H; simpl; tauto).
  induction es as [|e es IH]; intros s0; simpl.
  - split; [tauto | intros [H | [e [[] _]]]; exact H].
  - rewrite IH, !set_add_In. split.
    + intros [[[H | ->] | ->] | [e' [He' Hn]]].
      * left. exact H.
      * right. exists e. auto.
      * right. exists e. auto.
      * right. exists e'. auto.
    + intros [H | [e' [[<- | He'] Hn]]].
      * auto.
      * left. destruct Hn as [<- | <-]; auto.
      * right. exists e'. auto.
Qed.

Lemma connected_of_incident (es : list DepEdge) (n : string) :
  set_has (connected_of es) n = incident es n.
Proof.
  apply eq_true_iff_eq. rewrite set_has_In, connected_of_In. unfold incident.
  rewrite existsb_exists. split.
  - intros [e [He Hn]]. exists e. split; [exact He|].
    apply orb_true_iff. rewrite !String.eqb_eq. exact Hn.
  - intros [e [He Hn]]. exists e. split; [exact He|].
    apply orb_true_iff in Hn. rewrite !String.eqb_eq in Hn. exact Hn.
Qed.

(** C5. With the flag on, the filter keeps, in order, exactly the nodes that
    are source or target of some edge and leaves the edges unchanged; with the
    flag off it is the identity. *)
Theorem isolation_filter_exact (g : DependencyGraph) :
  nodes (isolationFilter true g) = filter (incident (edges g)) (nodes g) /\
  (forall n, In n (nodes (isolationFilter true g)) <->
             In n (nodes g) /\ exists e, In e (edges g) /\ (source e = n \/ target e = n)) /\
  edges (isolationFilter true g) = edges g /\
  isolationFilter false g = g.
Proof.
  split; [|split; [|split]]; try reflexivity.
  - simpl. apply filter_ext. intros n. apply connected_of_incident.
  - intros n. simpl. rewrite filter_In, set_has_In, connected_of_In. reflexivity.
Qed.

(** ** C4: degree sum *)

(** One iteration of the degree loop adds one per endpoint equal to [n]. *)
Lemma degree_step (m : jsmap nat) (e : DepEdge) (n : string) :
  get_or0 (let m1 := map_set m (source e) (get_or0 m (source e) + 1) in
           map_set m1 (target e) (get_or0 m1 (target e) + 1)) n =
  get_or0 m n + (Nat.b2n (String.eqb (source e) n) + Nat.b2n (String.eqb (target e) n)).
Proof.
  destruct e as [s t]. simpl. unfold get_or0, map_set.
  destruct (String.eqb_spec n t), (String.eqb_spec t s), (String.eqb_spec s n),
    (String.eqb_spec t n), (String.eqb_spec n s);
    subst; try congruence; simpl; lia.
Qed.

Lemma degree_fold (es : list DepEdge) (m : jsmap nat) (n : string) :
  get_or0
    (fold_left
       (fun m e =>
          let m1 := map_set m (source e) (get_or0 m (source e) + 1) in
          map_set m1 (target e) (get_or0 m1 (target e) + 1)) es m) n =
  get_or0 m n +
  list_sum (map (fun e => Nat.b2n (String.eqb (source e) n) + Nat.b2n (String.eqb (target e) n)) es).
Proof.
  revert m. induction es as [|e es IH]; intros m; simpl; [lia|].
  rewrite IH, degree_step. lia.
Qed.

Lemma degree_init (ns : list string) (m : jsmap nat) :
  (forall k, get_or0 m k = 0) ->
  forall k, get_or0 (fold_left (fun m n => map_set m n 0) ns m) k = 0.
Proof.
  revert m. induction ns as [|n ns IH]; intros m Hm; simpl; [exact Hm|].
  apply IH. intros k. unfold get_or0, map_set. destruct (String.eqb k n); [reflexivity|].
  apply Hm.
Qed.

Lemma degreeMap_get (data : DependencyGraph) (n : string) :
  get_or0 (degreeMap data) n =
  list_sum (map (fun e => Nat.b2n (String.eqb (source e) n) + Nat.b2n (String.eqb (target e) n))
                (edges data)).
Proof.
  unfold degreeMap. rewrite degree_fold, degree_init; [reflexivity|].
  intros k. reflexivity.
Qed.

Lemma list_sum_map_add {A} (f g : A -> nat) (l : list A) :
  list_sum (map (fun x => f x + g x) l) = list_sum (map f l) + list_sum (map g l).
Proof. induction l as [|x l IH]; simpl; lia. Qed.

Lemma list_sum_swap {A B} (f : A -> B -> nat) (la : list A) (lb : list B) :
  list_sum (map (fun a => list_sum (map (fun b => f a b) lb)) la) =
  list_sum (map (fun b => list_sum (map (fun a => f a b) la)) lb).
Proof.
  induction la as [|a la IH]; simpl.
  - induction lb; simpl; lia.
  - rewrite IH, list_sum_map_add. reflexivity.
Qed.

Lemma count_eq_set_has (ns : list string) (x : string) :
  NoDup ns -> list_sum (map (fun n => Nat.b2n (String.eqb x n)) ns) = Nat.b2n (set_has ns x).
Proof.
  induction 1 as [|n ns Hn Hnd IH]; simpl; [reflexivity|].
  unfold set_has in *. simpl. rewrite IH.
  destruct (String.eqb_spec x n) as [-> | Hx]; simpl; [|reflexivity].
  assert (existsb (String.eqb n) ns = false) as ->; [|reflexivity].
  apply set_has_false. exact Hn.
Qed.

(** C4 (counterexample). The edge [a -> q] with [q] outside the node list
    still raises the degree of [a]: the degree sum is 1 while no edge has
    both endpoints in the node list. *)
Lemma degree_sum_orphan :
  degree_sum g_orphan = 1 /\ both_present (nodes g_orphan) (edges g_orphan) = 0 /\
  degree_sum g_orphan <> 2 * both_present (nodes g_orphan) (edges g_orphan).
Proof. vm_compute. split; [reflexivity | split; [reflexivity | discriminate]]. Qed.

(** C4 (amended). For a node list without duplicates, the sum of the degrees
    is the number of edge endpoint positions that lie in the node list: an
    edge with both endpoints present contributes 2, an edge with one present
    endpoint contributes 1.  When every endpoint is present the sum is twice
    the number of edges. *)
Theorem degree_sum_endpoints (g : DependencyGraph) :
  NoDup (nodes g) ->
  degree_sum g = present_endpoints (nodes g) (edges g) /\
  (endpoints_known g = true -> degree_sum g = 2 * length (edges g)).
Proof.
  intros Hnd.
  assert (degree_sum g = present_endpoints (nodes g) (edges g)) as Hsum.
  { unfold degree_sum, graphNodes, present_endpoints. rewrite map_map. simpl.
    rewrite (map_ext _ _ (degreeMap_get g)).
    rewrite (list_sum_swap (fun n e => Nat.b2n (String.eqb (source e) n)
                                        + Nat.b2n (String.eqb (target e) n))).
    f_equal. apply map_ext. intros e.
    rewrite list_sum_map_add, !count_eq_set_has by exact Hnd. reflexivity. }
  split; [exact Hsum|]. intros Hk. rewrite Hsum. unfold endpoints_known in Hk.
  unfold present_endpoints. destruct g as [ns es]. simpl in *. clear Hsum Hnd.
  induction es as [|e es IH]; simpl in *; [reflexivity|].
  apply andb_true_iff in Hk as [He Hk]. apply andb_true_iff in He as [-> ->].
  rewrite IH by exact Hk. simpl. lia.
Qed.

(** ** C1: forest coverage *)

(** C1 (code defect). [buildTree] filters the kid list against [visited]
    once, before building any kid.  In the diamond [a -> b], [a -> c],
    [b -> c] (its own filtered graph), [c] is built under [b] and then again
    as the second kid of [a]: the forest holds 4 names for 3 nodes. *)
Theorem forest_duplicate_on_diamond :
  getGraphData g_diamond file true = g_diamond /\
  buildForest g_diamond =
    Some (TN "(project)" (Some [TN "a" (Some [TN "b" (Some [TN "c" None]); TN "c" None])])) /\
  option_map forest_names (buildForest g_diamond) = Some ["a"; "b"; "c"; "c"] /\
  length (nodes g_diamond) = 3.
Proof. vm_compute. repeat split. Qed.

(** ** C2: endpoints absent from the node list *)

(** C2 (code defect). For the node list [["a"]] with edge [a -> q], the force
    adapter drops the edge ([links] is empty), but the forest builder
    traverses into [q] and the tree view draws [a -> q]. *)
Theorem forest_traverses_orphan_endpoint :
  getGraphData g_orphan file true = g_orphan /\
  links g_orphan = [] /\
  buildForest g_orphan = Some (TN "(project)" (Some [TN "a" (Some [TN "q" None])])) /\
  ~ In "q" (nodes g_orphan).
Proof.
  vm_compute. split; [reflexivity | split; [reflexivity | split; [reflexivity|]]].
  intros [H | []]. discriminate.
Qed.

(** ** C8: fallback root *)

Lemma roots_nil (g : DependencyGraph) :
  (forall n, In n (nodes g) -> get_or0 (inDegree g) n <> 0) -> roots g = [].
Proof.
  intros H. unfold roots. destruct (filter _ (nodes g)) as [|r rs] eqn:E; [reflexivity|].
  assert (In r (filter (fun n => Nat.eqb (get_or0 (inDegree g) n) 0) (nodes g))) as Hr
    by (rewrite E; left; reflexivity).
  apply filter_In in Hr as [Hr Hz]. apply Nat.eqb_eq in Hz. exfalso. exact (H r Hr Hz).
Qed.

(** C8. If no node has in-degree 0, the candidate roots are the first node
    alone and the forest builder returns a forest whose first sub-tree is
    rooted at that node; on the pure cycle [x -> y -> z -> x] the forest is
    [x] over [y] over [z], three distinct names. *)
Theorem forest_cycle_fallback :
  (forall g x rest,
     nodes g = x :: rest ->
     (forall n, In n (nodes g) -> get_or0 (inDegree g) n <> 0) ->
     candidate_roots g = Some [x] /\
     exists k others, buildForest g = Some (TN "(project)" (Some (TN x k :: others)))) /\
  buildForest g_cycle =
    Some (TN "(project)" (Some [TN "x" (Some [TN "y" (Some [TN "z" None])])])) /\
  option_map forest_names (buildForest g_cycle) = Some ["x"; "y"; "z"].
Proof.
  split; [|vm_compute; split; reflexivity].
  intros g x rest Hn Hin.
  assert (candidate_roots g = Some [x]) as Hc.
  { unfold candidate_roots. rewrite roots_nil by exact Hin. simpl. rewrite Hn. reflexivity. }
  split; [exact Hc|].
  unfold buildForest. rewrite Hn, Hc. cbn [mapBuild].
  destruct (buildTree_total (childrenMap g) (map target (edges g))
              (childrenMap_targets g) (forest_fuel g) [] x) as [V [t Ht]].
  - pose proof (unvisited_targets_le (map target (edges g)) (set_add [] x)).
    rewrite length_map in H. unfold forest_fuel. lia.
  - rewrite Ht. destruct (buildTree_name _ _ _ _ _ _ Ht) as [k ->]. simpl. eauto.
Qed.

(** ** C10: selection detail *)

(** C10 (corrected).  For a non-empty selected id the detail is returned
    whether or not the id is in the displayed node list; its lists are the
    endpoints of the displayed edges that mention the id, and both are empty
    when no displayed edge mentions it. *)
Lemma nodeDetail_nonempty (s : string) (data : DependencyGraph) :
  s <> "" ->
  nodeDetail (Some s) data =
    Some (mkDetail s (map target (filter (fun e => String.eqb (source e) s) (edges data)))
                     (map source (filter (fun e => String.eqb (target e) s) (edges data)))) /\
  (incident (edges data) s = false ->
   nodeDetail (Some s) data = Some (mkDetail s [] [])).
Proof.
  intros Hs. unfold nodeDetail.
  rewrite (proj2 (String.eqb_neq s "") Hs). split; [reflexivity|].
  intros Hi. unfold incident in Hi. do 2 f_equal.
  - induction (edges data) as [|e es IH]; simpl in *; [reflexivity|].
    apply orb_false_iff in Hi as [He Hi]. apply orb_false_iff in He as [-> _]. auto.
  - induction (edges data) as [|e es IH]; simpl in *; [reflexivity|].
    apply orb_false_iff in Hi as [He Hi]. apply orb_false_iff in He as [_ ->]. auto.
Qed.

(** C10 (counterexample).  [if (!selectedNode) return null] treats the
    non-null empty string as no selection, so the selected id [""] gets no
    detail, whatever the displayed graph. *)
Theorem node_detail_empty_id :
  nodeDetail (Some "") g_scenario1 = None.
Proof. reflexivity. Qed.

(** ** Instances of the theorems at concrete inputs *)

Lemma nodeDetail_nonempty_witness :
  "a/x.ts" <> "" /\
  ~ In "a/x.ts" (nodes (getGraphData g_scenario1 directory true)) /\
  nodeDetail (Some "a/x.ts") (getGraphData g_scenario1 directory true) =
    Some (mkDetail "a/x.ts" [] []).
Proof.
  assert (H : "a/x.ts" <> "") by discriminate.
  assert (Hi : incident (edges (getGraphData g_scenario1 directory true)) "a/x.ts" = false)
    by (vm_compute; reflexivity).
  split; [exact H|]. split.
  - vm_compute. intros [Ha | [Hb | []]]; discriminate.
  - exact (proj2 (nodeDetail_nonempty "a/x.ts" _ H) Hi).
Defined.

Lemma degree_sum_endpoints_witness :
  NoDup (nodes g_orphan) /\
  degree_sum g_orphan = present_endpoints (nodes g_orphan) (edges g_orphan).
Proof.
  assert (H : NoDup (nodes g_orphan)) by (repeat constructor; intros []).
  split; [exact H | exact (proj1 (degree_sum_endpoints g_orphan H))].
Defined.

Lemma aggregate_count_and_leaf_collapse_witness :
  aggregateToDirectory g_leaf = mkGraph ["(root)"] [].
Proof. exact (proj2 aggregate_count_and_leaf_collapse g_leaf eq_refl eq_refl). Defined.

Lemma aggregate_edges_closed_witness :
  endpoints_known g_scenario1 = true /\ In "b" (nodes (aggregateToDirectory g_scenario1)).
Proof.
  split; [reflexivity|].
  exact (proj2 (aggregate_edges_closed g_scenario1 eq_refl (mkEdge "a" "b")
                  ltac:(vm_compute; left; reflexivity))).
Defined.

Lemma forest_cycle_fallback_witness : candidate_roots g_cycle = Some ["x"].
Proof.
  refine (proj1 (proj1 forest_cycle_fallback g_cycle "x" ["y"; "z"] eq_refl _)).
  intros n Hn. simpl in Hn.
  destruct Hn as [<- | [<- | [<- | []]]]; vm_compute; discriminate.
Defined.

Lemma root_sentinel_merge_witness : In "(root)" (nodes (aggregateToDirectory g_leaf)).
Proof.
  exact (proj1 (proj2 (proj2 root_sentinel_merge)) g_leaf "a" (or_introl eq_refl) eq_refl).
Defined.

(** * Further properties of the view *)

(** ** Paths, labels and the detail title *)

Lemma lastIndexOf_from_spec (s : string) :
  forall i acc k, lastIndexOf_from "/"%char s i acc = Some k ->
  (acc = Some k /\ has_slash s = false) \/
  (exists pre post, s = String.append pre (String "/" post) /\
                    k = i + String.length pre /\ has_slash post = false).
Proof.
  induction s as [|a s IH]; intros i acc k H; simpl in *.
  - left. auto.
  - destruct (IH _ _ _ H) as [[Hacc Hs] | [pre [post [-> [-> Hp]]]]].
    + destruct (Ascii.eqb_spec a "/"%char) as [-> | Ha].
      * right. exists "", s. simpl. inversion Hacc. repeat split; auto; lia.
      * left. split; [exact Hacc|]. rewrite Hs, orb_false_r.
        first [reflexivity | apply Ascii.eqb_neq; exact Ha].
    + right. exists (String a pre), post. simpl. repeat split; auto; lia.
Qed.

Lemma lastIndexOf_slash_decomp (s : string) (k : nat) :
  lastIndexOf s "/"%char = Some k ->
  exists pre post, s = String.append pre (String "/" post) /\
                   k = String.length pre /\ has_slash post = false.
Proof.
  intros H. destruct (lastIndexOf_from_spec s 0 None k H) as [[Hc _] | Hd]; [discriminate|].
  exact Hd.
Qed.

Lemma lastIndexOf_from_some (s : string) :
  forall i j, lastIndexOf_from "/"%char s i (Some j) <> None.
Proof.
  induction s as [|a s IH]; intros i j; simpl; [discriminate|].
  destruct (Ascii.eqb a "/"%char); apply IH.
Qed.

Lemma lastIndexOf_none (s : string) :
  lastIndexOf s "/"%char = None -> has_slash s = false.
Proof.
  unfold lastIndexOf. generalize 0 as i.
  induction s as [|a s IH]; intros i H; simpl in *; [reflexivity|].
  destruct (Ascii.eqb a "/"%char) eqn:Ea.
  - exfalso. exact (lastIndexOf_from_some s (S i) i H).
  - simpl. eapply IH. exact H.
Qed.

Lemma substring_prefix (p r : string) :
  substring 0 (String.length p) (String.append p r) = p.
Proof. induction p as [|a p IH]; simpl; [destruct r; reflexivity | now rewrite IH]. Qed.

Lemma substring_all (r : string) : substring 0 (String.length r) r = r.
Proof. induction r as [|a r IH]; simpl; [reflexivity | now rewrite IH]. Qed.

Lemma substring_suffix (p r : string) :
  substring (String.length p) (String.length r) (String.append p r) = r.
Proof. induction p as [|a p IH]; simpl; [apply substring_all | exact IH]. Qed.

Lemma append_length (p r : string) :
  String.length (String.append p r) = String.length p + String.length r.
Proof. induction p as [|a p IH]; simpl; [reflexivity | now rewrite IH]. Qed.

Lemma has_slash_mid (pre post : string) : has_slash (String.append pre (String "/" post)) = true.
Proof. induction pre as [|a pre IH]; simpl; [reflexivity | now rewrite IH, orb_true_r]. Qed.

Lemma append_assoc_slash (pre post : string) :
  String.append pre (String "/" post) = String.append (String.append pre "/") post.
Proof. induction pre as [|a pre IH]; simpl; [reflexivity | now rewrite IH]. Qed.

(** A path with a separator is its directory, ["/"] and its label; the label
    never contains ["/"], and a path without separator is its own label. *)
Theorem getDir_nodeLabel_split (id : string) :
  has_slash (nodeLabel id) = false /\ (has_slash id = true ->
   id = String.append (getDir id) (String "/" (nodeLabel id))) /\ (has_slash id = false -> nodeLabel id = id /\ getDir id = "(root)").
Proof.
  unfold nodeLabel, getDir.
  destruct (lastIndexOf id "/"%char) as [k|] eqn:E.
  - destruct (lastIndexOf_slash_decomp id k E) as [pre [post [-> [-> Hp]]]].
    rewrite append_length. simpl.
    replace (String.length pre + S (String.length post) - S (String.length pre))
      with (String.length post) by lia.
    replace (S (String.length pre)) with (String.length (String.append pre "/"))
      by (rewrite append_length; simpl; lia).
    rewrite (append_assoc_slash pre post), substring_suffix, <- (append_assoc_slash pre post),
      substring_prefix.
    split; [exact Hp|]. split; [reflexivity|].
    rewrite has_slash_mid. discriminate.
  - pose proof (lastIndexOf_none id E) as Hn.
    split; [exact Hn|]. split; [congruence | auto].
Qed.

Lemma split_on_no_slash (s : string) : has_slash s = false -> split_on "/"%char s = [s].
Proof.
  induction s as [|a s IH]; intros H; simpl in *; [reflexivity|].
  apply orb_false_iff in H as [Ha Hs]. rewrite Ha, IH by exact Hs. reflexivity.
Qed.

Lemma split_on_mid (pre post : string) :
  exists l, l <> [] /\ split_on "/"%char (String.append pre (String "/" post)) = l ++ split_on "/"%char post.
Proof.
  induction pre as [|a pre IH]; simpl.
  - exists [""]. split; [discriminate | reflexivity].
  - destruct IH as [l [Hl ->]]. destruct (Ascii.eqb a "/"%char).
    + exists ("" :: l). split; [discriminate | reflexivity].
    + destruct l as [|x l]; [congruence|]. exists (String a x :: l).
      split; [discriminate | reflexivity].
Qed.

(** The title of the detail panel ([id.split("/").pop()]) is the label the
    graphs draw for the same id. *)
Theorem detailTitle_nodeLabel (id : string) : detailTitle id = Some (nodeLabel id).
Proof.
  unfold detailTitle, js_pop.
  destruct (has_slash id) eqn:Hs.
  - destruct (getDir_nodeLabel_split id) as [Hl [Hsplit _]].
    specialize (Hsplit Hs). remember (nodeLabel id) as lab. rewrite Hsplit.
    destruct (split_on_mid (getDir id) lab) as [l [_ ->]].
    rewrite split_on_no_slash by exact Hl. rewrite rev_app_distr. reflexivity.
  - destruct (getDir_nodeLabel_split id) as [_ [_ H]]. destruct (H Hs) as [-> _].
    rewrite split_on_no_slash by exact Hs. reflexivity.
Qed.

(** ** View state *)

(** Clicking a node selects it unless it is the selected one, which clears
    the selection; two clicks on the same node restore the state when nothing
    or that node was selected, and clear the selection when another node
    was. *)
Theorem click_toggle (st : ViewState) (id : string) :
  (selectedNode (step st (ClickNode id)) = None <-> selectedNode st = Some id) /\
  (selectedNode st <> Some id -> selectedNode (step st (ClickNode id)) = Some id) /\
  (selectedNode st = None \/ selectedNode st = Some id ->
   step (step st (ClickNode id)) (ClickNode id) = st) /\
  (forall other, other <> id -> selectedNode st = Some other ->
   selectedNode (step (step st (ClickNode id)) (ClickNode id)) = None).
Proof.
  destruct st as [vm gr ex hi se sel]. simpl.
  destruct sel as [s|]; simpl.
  - destruct (String.eqb s id) eqn:E; simpl; rewrite ?String.eqb_refl.
    + apply String.eqb_eq in E. subst s.
      repeat split; intros; try reflexivity; try congruence.
    + apply String.eqb_neq in E.
      repeat split; intros; try reflexivity; try congruence.
      destruct H; congruence.
  - rewrite String.eqb_refl. repeat split; intros; try reflexivity; try congruence.
Qed.

(** Only the granularity buttons and the isolation toggle change the
    displayed graph; only a click and the close button change the
    selection, so a selection survives a granularity or isolation change. *)
Theorem overlay_events_keep_graph (graph : DependencyGraph) (st : ViewState) (ev : UiEvent) :
  ((forall g, ev <> SetGranularity g) -> ev <> ToggleHideIsolated ->
   displayedGraph graph (step st ev) = displayedGraph graph st) /\
  ((forall id, ev <> ClickNode id) -> ev <> CloseDetail ->
   selectedNode (step st ev) = selectedNode st).
Proof.
  destruct st as [vm gr ex hi se sel].
  split; intros H1 H2; destruct ev; simpl; try reflexivity;
    try (destruct (String.eqb key "Escape" && ex); reflexivity);
    try (exfalso; eapply H1; reflexivity); try congruence.
Qed.

(** ** Force adapter: nodes, degrees and links *)

Lemma nodeMap_has (ns : list string) (m : jsmap GraphNode) (f : string -> GraphNode)
  (Hf : forall id, gid (f id) = id) (k : string) :
  map_has (fold_left (fun m n => map_set m (gid n) n) (map f ns) m) k =
  set_has ns k || map_has m k.
Proof.
  revert m. induction ns as [|n ns IH]; intros m; simpl; [reflexivity|].
  rewrite IH. unfold set_has. simpl. unfold map_has, map_set. rewrite Hf.
  destruct (String.eqb k n); simpl; [rewrite orb_true_r|]; reflexivity.
Qed.

Lemma list_sum_b2n_filter {A} (f g : A -> bool) (l : list A) :
  list_sum (map (fun x => Nat.b2n (f x) + Nat.b2n (g x)) l) =
  length (filter f l) + length (filter g l).
Proof. induction l as [|x l IH]; simpl; [reflexivity|]. destruct (f x), (g x); simpl; lia. Qed.

(** The force adapter draws, in order, exactly the edges whose two endpoints
    are in the node list, and each node's degree is its number of outgoing
    plus incoming edges (a self-loop counts twice). *)
Theorem force_links_and_degrees (data : DependencyGraph) :
  links data =
    filter (fun e => set_has (nodes data) (source e) && set_has (nodes data) (target e))
           (edges data) /\
  graphNodes data =
    map (fun id => mkGraphNode id (getDir id) (out_count (edges data) id + in_count (edges data) id))
        (nodes data).
Proof.
  split.
  - unfold links, nodeMap, graphNodes. apply filter_ext. intros e.
    rewrite !(nodeMap_has _ map_empty
      (fun id => mkGraphNode id (getDir id) (get_or0 (degreeMap data) id)) (fun id => eq_refl)). unfold map_has, map_empty.
    rewrite !orb_false_r. reflexivity.
  - unfold graphNodes. apply map_ext. intros id. rewrite degreeMap_get.
    unfold out_count, in_count. rewrite list_sum_b2n_filter. reflexivity.
Qed.

(** ** Tree adapter: roots *)

Lemma inDegree_fold (es : list DepEdge) (m : jsmap nat) (n : string) :
  get_or0 (fold_left (fun m e => map_set m (target e) (get_or0 m (target e) + 1)) es m) n =
  get_or0 m n + in_count es n.
Proof.
  revert m. unfold in_count. induction es as [|e es IH]; intros m; simpl; [lia|].
  rewrite IH. unfold get_or0, map_set.
  destruct (String.eqb_spec n (target e)) as [-> | Hne].
  - rewrite String.eqb_refl. simpl. lia.
  - rewrite (proj2 (String.eqb_neq (target e) n)) by congruence. reflexivity.
Qed.

(** The candidate roots are, in node-list order, the nodes that are the
    target of no edge (an edge from a node outside the list counts). *)
Theorem roots_no_incoming (data : DependencyGraph) :
  roots data = filter (fun n => Nat.eqb (in_count (edges data) n) 0) (nodes data) /\
  (forall n, In n (roots data) <->
     In n (nodes data) /\ forall e, In e (edges data) -> target e <> n).
Proof.
  assert (Hr : roots data = filter (fun n => Nat.eqb (in_count (edges data) n) 0) (nodes data)).
  { unfold roots, inDegree. apply filter_ext. intros n.
    rewrite inDegree_fold, degree_init by reflexivity. reflexivity. }
  split; [exact Hr|]. intros n. rewrite Hr, filter_In, Nat.eqb_eq. unfold in_count.
  rewrite length_zero_iff_nil. split.
  - intros [Hn Hf]. split; [exact Hn|]. intros e He Ht.
    assert (In e (filter (fun e => String.eqb (target e) n) (edges data))) as Hin.
    { apply filter_In. split; [exact He | apply String.eqb_eq; exact Ht]. }
    rewrite Hf in Hin. destruct Hin.
  - intros [Hn Hno]. split; [exact Hn|].
    destruct (filter _ (edges data)) as [|e es] eqn:E; [reflexivity|].
    assert (In e (filter (fun e => String.eqb (target e) n) (edges data))) as Hin
      by (rewrite E; left; reflexivity).
    apply filter_In in Hin as [He Ht]. apply String.eqb_eq in Ht. exfalso. exact (Hno e He Ht).
Qed.

(** ** Isolation filter *)

Lemma filter_twice {A} (f : A -> bool) (l : list A) : filter f (filter f l) = filter f l.
Proof.
  induction l as [|x l IH]; simpl; [reflexivity|].
  destruct (f x) eqn:E; simpl; [rewrite E, IH|]; auto.
Qed.

(** Filtering isolated nodes twice is filtering once; the kept nodes are a
    sub-list of the input and stay free of duplicates; the edges are untouched. *)
Theorem filterIsolated_idempotent (g : DependencyGraph) :
  filterIsolatedNodes (filterIsolatedNodes g) = filterIsolatedNodes g /\
  edges (filterIsolatedNodes g) = edges g /\
  incl (nodes (filterIsolatedNodes g)) (nodes g) /\
  (NoDup (nodes g) -> NoDup (nodes (filterIsolatedNodes g))).
Proof.
  split; [|split; [|split]].
  - unfold filterIsolatedNodes. simpl. rewrite filter_twice. reflexivity.
  - reflexivity.
  - intros n Hn. simpl in Hn. apply filter_In in Hn. tauto.
  - intros H. simpl. apply NoDup_filter. exact H.
Qed.

(** ** Forest shape *)



Lemma mapBuild_inv {A} (build : list string -> string -> option (list string * A))
  (R : list string -> Prop) (Q : string -> Prop) (P : A -> Prop) :
  (forall w c w' t, build w c = Some (w', t) -> R w -> Q c -> R w' /\ P t) ->
  forall ks w w' ts, mapBuild build w ks = Some (w', ts) -> R w -> Forall Q ks ->
  R w' /\ Forall P ts.
Proof.
  intros Hb ks. induction ks as [|c ks IH]; intros w w' ts H HR HQ; simpl in H.
  - inversion H; subst. auto.
  - destruct (build w c) as [[w1 t]|] eqn:E1; [|discriminate].
    destruct (mapBuild build w1 ks) as [[w2 ts']|] eqn:E2; [|discriminate].
    inversion H; subst. apply Forall_cons_iff in HQ as [Hc Hks].
    destruct (Hb _ _ _ _ E1 HR Hc) as [HR1 Ht].
    destruct (IH _ _ _ E2 HR1 Hks) as [HR2 Hts]. auto.
Qed.

(** Unfolding one successful [buildTree] call. *)
Lemma buildTree_step (ch : jsmap (list string)) (f : nat) (v : list string) (id : string)
  (v' : list string) (t : TreeNode) :
  buildTree ch (S f) v id = Some (v', t) ->
  let kids := filter (fun c => negb (set_has (set_add v id) c)) (children_of ch id) in
  exists ts, mapBuild (buildTree ch f) (set_add v id) kids = Some (v', ts) /\
             t = TN id (match kids with [] => None | _ :: _ => Some ts end).
Proof.
  simpl. intros H.
  destruct (mapBuild (buildTree ch f) (set_add v id) _) as [[w ts]|] eqn:E; [|discriminate].
  inversion H; subst. eauto.
Qed.

Lemma buildTree_visited (ch : jsmap (list string)) :
  forall f v id v' t, buildTree ch f v id = Some (v', t) ->
  forall x, In x v' -> In x v \/ In x (tree_names t).
Proof.
  induction f as [|f IH]; intros v id v' t H; [discriminate|].
  apply buildTree_step in H as [ts [Hm ->]].
  assert (forall ks W W' ts, mapBuild (buildTree ch f) W ks = Some (W', ts) ->
            forall x, In x W' -> In x W \/ In x (flat_map tree_names ts)) as Hloop.
  { induction ks as [|c ks IHks]; intros W W' ts' Hk x Hx; simpl in Hk.
    - inversion Hk; subst. auto.
    - destruct (buildTree ch f W c) as [[w1 t1]|] eqn:E1; [|discriminate].
      destruct (mapBuild (buildTree ch f) w1 ks) as [[w2 ts2]|] eqn:E2; [|discriminate].
      inversion Hk; subst. simpl. rewrite in_app_iff.
      destruct (IHks _ _ _ E2 x Hx) as [H1|H1]; [|tauto].
      destruct (IH _ _ _ _ E1 x H1); tauto. }
  intros x Hx. destruct (Hloop _ _ _ _ Hm x Hx) as [H1|H1].
  - apply set_add_In in H1 as [H1| ->]; [auto|].
    right. destruct (filter _ _); left; reflexivity.
  - destruct (filter _ _) eqn:Ek.
    + simpl in Hm. inversion Hm; subst. destruct H1.
    + right. right. exact H1.
Qed.

Section TreeNames.

Variable ch : jsmap (list string).
Variable T : list string.
Hypothesis ch_targets : forall id c, In c (children_of ch id) -> In c T.

Lemma buildTree_names :
  forall f v id v' t, buildTree ch f v id = Some (v', t) ->
  forall x, In x (tree_names t) -> x = id \/ In x T.
Proof.
  induction f as [|f IH]; intros v id v' t H; [discriminate|].
  apply buildTree_step in H as [ts [Hm ->]].
  edestruct (mapBuild_inv (buildTree ch f) (fun _ => True) (fun c => In c T)
              (fun t => forall x, In x (tree_names t) -> In x T)) as [_ Hts];
    [| exact Hm | exact I | |].
  - intros w c w' t Hc _ HcT. split; [exact I|]. intros x Hx.
    destruct (IH _ _ _ _ Hc x Hx) as [->|]; auto.
  - apply Forall_forall. intros c Hc. apply filter_In in Hc as [Hc _]. eauto.
  - intros x Hx. destruct (filter _ _).
    + simpl in Hx. destruct Hx as [->|[]]; auto.
    + simpl in Hx. destruct Hx as [->|Hx]; [auto|]. right.
      apply in_flat_map in Hx as [t1 [Ht1 Hx]].
      rewrite Forall_forall in Hts. exact (Hts t1 Ht1 x Hx).
Qed.

End TreeNames.


Lemma candidate_roots_nodes (data : DependencyGraph) (rs : list string) :
  candidate_roots data = Some rs -> incl rs (nodes data).
Proof.
  unfold candidate_roots, roots. intros H.
  destruct (Nat.ltb 0 _).
  - inversion H; subst. intros x Hx. apply filter_In in Hx. tauto.
  - destruct (nodes data) as [|x r]; simpl in H; [discriminate|].
    inversion H; subst. intros y [<-|[]]. left; reflexivity.
Qed.

(** Unfolding a successful [buildForest]. *)
Lemma buildForest_step (data : DependencyGraph) (t : TreeNode) :
  buildForest data = Some t ->
  exists rs visited rootTrees,
    candidate_roots data = Some rs /\
    mapBuild (buildTree (childrenMap data) (forest_fuel data)) [] rs = Some (visited, rootTrees) /\
    t = TN "(project)" (Some (rootTrees ++ map (fun n => TN n None)
                                (filter (fun n => negb (set_has visited n)) (nodes data)))).
Proof.
  unfold buildForest. intros H.
  destruct (nodes data) as [|x r] eqn:En; [discriminate|].
  destruct (candidate_roots data) as [rs|] eqn:Ec; [|discriminate].
  destruct (mapBuild _ [] rs) as [[w ts]|] eqn:E; [|discriminate].
  inversion H; subst.
  exists rs, w, ts. repeat split; try assumption; reflexivity.
Qed.

(** Every node of the graph appears in the tree view (at least once), and
    every name the tree view shows under the super-root is a node of the
    graph or the target of one of its edges. *)
Theorem forest_covers_nodes (data : DependencyGraph) (t : TreeNode) :
  buildForest data = Some t ->
  (forall n, In n (nodes data) -> In n (forest_names t)) /\
  (forall x, In x (forest_names t) -> In x (nodes data) \/ In x (map target (edges data))).
Proof.
  intros H. apply buildForest_step in H as [rs [w [ts [Hrs [Hm ->]]]]].
  simpl. split.
  - intros n Hn. rewrite flat_map_app, in_app_iff.
    destruct (set_has w n) eqn:Ew.
    + left. apply set_has_In in Ew.
      assert (forall ks W W' ts, mapBuild (buildTree (childrenMap data) (forest_fuel data)) W ks
                = Some (W', ts) ->
              forall x, In x W' -> In x W \/ In x (flat_map tree_names ts)) as Hloop.
      { induction ks as [|c ks IHks]; intros W W' ts' Hk x Hx; cbn [mapBuild] in Hk.
        - inversion Hk; subst. auto.
        - destruct (buildTree (childrenMap data) (forest_fuel data) W c)
            as [[w1 t1]|] eqn:E1; [|discriminate].
          destruct (mapBuild (buildTree (childrenMap data) (forest_fuel data)) w1 ks)
            as [[w2 ts2]|] eqn:E2; [|discriminate].
          inversion Hk; subst. simpl. rewrite in_app_iff.
          destruct (IHks _ _ _ E2 x Hx) as [H1|H1]; [|tauto].
          destruct (buildTree_visited _ _ _ _ _ _ E1 x H1); tauto. }
      destruct (Hloop _ _ _ _ Hm n Ew) as [[]|H1]. exact H1.
    + right. apply in_flat_map. exists (TN n None). split; [|left; reflexivity].
      apply in_map_iff. exists n. split; [reflexivity|].
      apply filter_In. rewrite Ew. auto.
  - intros x Hx. rewrite flat_map_app, in_app_iff in Hx. destruct Hx as [Hx|Hx].
    + edestruct (mapBuild_inv (buildTree (childrenMap data) (forest_fuel data))
                   (fun _ => True) (fun c => In c (nodes data))
                   (fun t => forall x, In x (tree_names t) ->
                             In x (nodes data) \/ In x (map target (edges data))))
        as [_ Hts]; [| exact Hm | exact I | |].
      * intros W c W' t1 Hc _ HcN. split; [exact I|]. intros y Hy.
        destruct (buildTree_names _ _ (childrenMap_targets data) _ _ _ _ _ Hc y Hy) as [->|];
          auto.
      * apply Forall_forall. exact (candidate_roots_nodes _ _ Hrs).
      * apply in_flat_map in Hx as [t1 [Ht1 Hx]].
        rewrite Forall_forall in Hts. exact (Hts t1 Ht1 x Hx).
    + apply in_flat_map in Hx as [t1 [Ht1 Hx]]. apply in_map_iff in Ht1 as [n [<- Hn]].
      apply filter_In in Hn as [Hn _]. simpl in Hx. destruct Hx as [<-|[]]. auto.
Qed.


(** ** Aggregated edges are distinct *)

Lemma agg_step_keys (st : list string * list DepEdge) (e : DepEdge) :
  fst st = map (fun e => edge_key (source e) (target e)) (snd st) -> NoDup (fst st) ->
  let st' := agg_step st e in
  fst st' = map (fun e => edge_key (source e) (target e)) (snd st') /\ NoDup (fst st') /\
  incl (fst st) (fst st') /\
  (getDir (source e) <> getDir (target e) ->
   In (edge_key (getDir (source e)) (getDir (target e))) (fst st')).
Proof.
  destruct st as [ks es]. simpl. intros Hk Hnd. unfold agg_step.
  destruct (String.eqb_spec (getDir (source e)) (getDir (target e))) as [Heq|Hne].
  - simpl. repeat split; auto using incl_refl. intros []; exact Heq.
  - destruct (set_has ks (edge_key (getDir (source e)) (getDir (target e)))) eqn:Eh; simpl.
    + repeat split; auto using incl_refl. intros _. apply set_has_In. exact Eh.
    + subst ks. unfold set_add. rewrite Eh, map_app. simpl.
      repeat split.
      * apply set_has_false in Eh. apply NoDup_app; auto using NoDup_cons, NoDup_nil.
        intros y Hy [<-|[]]. contradiction.
      * intros y Hy. apply in_or_app. left. exact Hy.
      * intros _. apply in_or_app. right. left. reflexivity.
Qed.

Lemma agg_fold_keys (es : list DepEdge) :
  forall st,
  fst st = map (fun e => edge_key (source e) (target e)) (snd st) -> NoDup (fst st) ->
  let st' := fold_left agg_step es st in
  fst st' = map (fun e => edge_key (source e) (target e)) (snd st') /\ NoDup (fst st') /\
  (forall e, In e es -> getDir (source e) <> getDir (target e) ->
   In (edge_key (getDir (source e)) (getDir (target e))) (fst st')).
Proof.
  induction es as [|e es IH]; intros st Hk Hnd; simpl; [repeat split; auto; intros ? []|].
  destruct (agg_step_keys st e Hk Hnd) as [Hk1 [Hnd1 [_ He1]]].
  destruct (IH _ Hk1 Hnd1) as [Hk2 [Hnd2 Hes]]. repeat split; auto.
  intros e0 [<-|He0] Hne; [|auto].
  specialize (He1 Hne).
  assert (forall es st, incl (fst st) (fst (fold_left agg_step es st))) as Hgrow.
  { clear. induction es as [|e es IH]; intros st; simpl; [apply incl_refl|].
    eapply incl_tran; [|apply IH]. destruct st as [ks es']. unfold agg_step.
    destruct (String.eqb _ _); [apply incl_refl|].
    destruct (negb _); [|apply incl_refl]. simpl. intros y Hy. apply set_add_In. auto. }
  apply Hgrow. exact He1.
Qed.

(** The directory edges have pairwise distinct keys (hence no duplicate
    edge), and for each input edge between two different directories some
    directory edge carries the key of its image: an image is dropped only
    when an earlier edge produced the same key string.  Every directory edge
    is the image of such an input edge. *)
Theorem aggregate_edges_distinct (es : list DepEdge) :
  NoDup (map (fun e => edge_key (source e) (target e)) (aggregate_edges es)) /\
  NoDup (aggregate_edges es) /\
  (forall e, In e es -> getDir (source e) <> getDir (target e) ->
     exists e', In e' (aggregate_edges es) /\
       edge_key (source e') (target e') = edge_key (getDir (source e)) (getDir (target e))) /\
  (forall e', In e' (aggregate_edges es) ->
     exists e, In e es /\ getDir (source e) <> getDir (target e) /\
               e' = mkEdge (getDir (source e)) (getDir (target e))).
Proof.
  destruct (agg_fold_keys es ([], []) eq_refl (NoDup_nil _)) as [Hk [Hnd Hall]].
  unfold aggregate_edges. rewrite <- Hk. repeat split.
  - exact Hnd.
  - rewrite Hk in Hnd. eapply NoDup_map_inv. exact Hnd.
  - intros e He Hne. specialize (Hall e He Hne). rewrite Hk in Hall.
    apply in_map_iff in Hall as [e' [Heq Hin]]. eauto.
  - apply aggregate_edges_origin.
Qed.

(** ** Selection panel *)

Lemma edge_in_filter (es : list DepEdge) (a b : string) :
  In b (map target (filter (fun e => String.eqb (source e) a) es)) <-> In (mkEdge a b) es.
Proof.
  rewrite in_map_iff. split.
  - intros [e [<- He]]. apply filter_In in He as [He Hs]. apply String.eqb_eq in Hs.
    destruct e as [s t]. simpl in *. subst. exact He.
  - intros H. exists (mkEdge a b). split; [reflexivity|]. apply filter_In.
    split; [exact H | apply String.eqb_refl].
Qed.

Lemma edge_in_filter_rev (es : list DepEdge) (a b : string) :
  In a (map source (filter (fun e => String.eqb (target e) b) es)) <-> In (mkEdge a b) es.
Proof.
  rewrite in_map_iff. split.
  - intros [e [<- He]]. apply filter_In in He as [He Hs]. apply String.eqb_eq in Hs.
    destruct e as [s t]. simpl in *. subst. exact He.
  - intros H. exists (mkEdge a b). split; [reflexivity|]. apply filter_In.
    split; [exact H | apply String.eqb_refl].
Qed.

(** For two non-empty ids [a] and [b], [b] is listed under "depends on" of
    [a] exactly when [a] is listed under "depended by" of [b], exactly when
    the edge [a -> b] is in the graph; the lists hold one entry per edge
    (duplicate edges give duplicate entries). *)
Theorem selection_symmetry (data : DependencyGraph) (a b : string) :
  a <> "" -> b <> "" ->
  exists da db,
    nodeDetail (Some a) data = Some da /\ nodeDetail (Some b) data = Some db /\
    did da = a /\ did db = b /\
    (In b (dependsOn da) <-> In (mkEdge a b) (edges data)) /\
    (In a (dependedBy db) <-> In (mkEdge a b) (edges data)) /\
    length (dependsOn da) = out_count (edges data) a /\
    length (dependedBy db) = in_count (edges data) b.
Proof.
  intros Ha Hb. unfold nodeDetail.
  rewrite (proj2 (String.eqb_neq a "") Ha), (proj2 (String.eqb_neq b "") Hb).
  do 2 eexists. repeat split; simpl.
  - apply edge_in_filter.
  - apply edge_in_filter.
  - apply edge_in_filter_rev.
  - apply edge_in_filter_rev.
  - rewrite length_map. reflexivity.
  - rewrite length_map. reflexivity.
Qed.

(** ** Witnesses of the properties above *)

Lemma forest_covers_nodes_witness :
  buildForest g_orphan = Some (TN "(project)" (Some [TN "a" (Some [TN "q" None])])) /\
  (forall n, In n (nodes g_orphan) ->
     In n (forest_names (TN "(project)" (Some [TN "a" (Some [TN "q" None])])))) /\
  (forall x, In x (forest_names (TN "(project)" (Some [TN "a" (Some [TN "q" None])]))) ->
     In x (nodes g_orphan) \/ In x (map target (edges g_orphan))).
Proof.
  assert (H : buildForest g_orphan = Some (TN "(project)" (Some [TN "a" (Some [TN "q" None])])))
    by (vm_compute; reflexivity).
  split; [exact H|]. exact (forest_covers_nodes g_orphan _ H).
Defined.


Lemma selection_symmetry_witness :
  "a" <> "" /\ "c" <> "" /\
  exists da db,
    nodeDetail (Some "a") g_diamond = Some da /\ nodeDetail (Some "c") g_diamond = Some db /\
    did da = "a" /\ did db = "c" /\
    (In "c" (dependsOn da) <-> In (mkEdge "a" "c") (edges g_diamond)) /\
    (In "a" (dependedBy db) <-> In (mkEdge "a" "c") (edges g_diamond)) /\
    length (dependsOn da) = out_count (edges g_diamond) "a" /\
    length (dependedBy db) = in_count (edges g_diamond) "c".
Proof.
  assert (Ha : "a" <> "") by discriminate.
  assert (Hc : "c" <> "") by discriminate.
  split; [exact Ha|]. split; [exact Hc|].
  exact (selection_symmetry g_diamond "a" "c" Ha Hc).
Defined.
